(** * async-stream: the completion coordinator of [index.js]

    [convertToAsyncStream(stream, callback)] replaces [stream.on] by a
    function that wraps the listeners of the events "data", "end" and
    "error", counts the per-item handlers still running ([pending]),
    latches the end of the source ([is_done]) and reports the
    outcome through [callOnce(callback)].

    The embedding follows the file function by function.

    - JavaScript values are a small inductive type; the function
      expressions of [index.js] are values that carry the number of the
      [convertToAsyncStream] activation that created them.
    - The variables captured by the closures ([is_done], [pending],
      [called]) are a record that is threaded through a state monad; the
      monad also writes the trace of the calls that are made.
    - The functions that [index.js] is given (the listeners, the
      terminal [callback], the original [stream.on]) are not run: the
      call is written to the trace.  In [index.js] such a call is always
      the last thing a function does with the captured variables and its
      result is never used, so what the callee does next (returning,
      calling one of the closures at once or much later) is a sequence of
      invocations of the closures, which is what [run] takes.  The model
      describes control returning from such a call; [index.js] has no
      [try]/[catch]. *)

From stdpp Require Import base numbers option list strings gmap.

Open Scope Z_scope.

(** ** Values *)

Definition loc := positive.

(** Numbers are restricted to the integers and NaN; every number left
    out is truthy.  The last seven constructors are the function
    expressions of [index.js], by the line they start on. *)
Inductive value : Type :=
| VUndefined
| VNull
| VBool (b : bool)
| VNum (n : Z)
| VNaN
| VStr (s : string)
| VObj (l : loc)                         (* an object of the heap *)
| VGlobal                                (* the global object *)
| VExt (id : nat)                        (* a function from outside index.js *)
| VGate (c : nat)                        (* line 13, [asyncCallback] *)
| VOn (c : nat)                          (* line 43, the new [stream.on] *)
| VDataWrap (c : nat) (listener : value) (* line 46 *)
| VItemDone (c k : nat)                  (* line 48, the k-th one created *)
| VEndWrap (c : nat) (listener : value)  (* line 57 *)
| VEndDone (c k : nat)                   (* line 59, the k-th one created *)
| VErrWrap (c : nat) (listener : value). (* line 67 *)

Global Instance value_eq_dec : EqDecision value.
Proof.
  intros x y; unfold Decision.
  decide equality;
    first [ apply Nat.eq_dec | apply Z.eq_dec | apply Pos.eq_dec
          | apply String.string_dec | apply Bool.bool_dec ].
Defined.

(** ToBoolean. *)
Definition truthy (v : value) : bool :=
  match v with
  | VUndefined | VNull | VNaN => false
  | VBool b => b
  | VNum n => negb (n =? 0)
  | VStr s => negb (String.eqb s "")
  | _ => true
  end.

(** The i-th actual argument; a missing one reads as [undefined]. *)
Definition arg (i : nat) (args : list value) : value :=
  nth i args VUndefined.

(** [index.js] is a CommonJS module without "use strict": inside its
    functions a missing receiver reads as the global object.  (Boxing of
    a primitive receiver is not modelled.) *)
Definition sloppy_this (this : value) : value :=
  match this with
  | VUndefined | VNull => VGlobal
  | _ => this
  end.

(** [case "..."] of a [switch]: strict equality with a string literal. *)
Definition case_str (v : value) (s : string) : bool :=
  match v with
  | VStr s' => String.eqb s' s
  | _ => false
  end.

(** ** Captured variables, trace, monad *)

(** [is_done], [pending] (line 38-39) and [called] (line 11).  [pending]
    is a JavaScript number that only sees [++] and [--]: an integer.
    [items] and [ends] count the evaluations of the function expressions
    of lines 48 and 59; they give each of those closures its identity and
    appear in no test of the program. *)
Record vars : Type := Vars {
  is_done : bool;
  pending : Z;
  called : bool;
  items : nat;
  ends : nat
}.

Definition init_vars : vars := Vars false 0 false 0 0.

Definition set_is_done (b : bool) (v : vars) : vars :=
  Vars b (pending v) (called v) (items v) (ends v).
Definition set_pending (p : Z) (v : vars) : vars :=
  Vars (is_done v) p (called v) (items v) (ends v).
Definition set_called (b : bool) (v : vars) : vars :=
  Vars (is_done v) (pending v) b (items v) (ends v).
Definition set_items (n : nat) (v : vars) : vars :=
  Vars (is_done v) (pending v) (called v) n (ends v).
Definition set_ends (n : nat) (v : vars) : vars :=
  Vars (is_done v) (pending v) (called v) (items v) n.

(** The calls written to the trace. *)
Inductive call : Type :=
| Gate (this : value) (args : list value)
    (* [asyncCallback] is entered: from lines 51 and 61, or from whoever
       received it at line 68 *)
| Callback (this : value) (args : list value)
    (* line 16: callback.apply(this, arguments) *)
| StramOn (this : value) (args : list value)
    (* lines 46, 57, 67: stramOn.call(this, event, wrapper) *)
| Listener (listener : value) (args : list value).
    (* lines 48, 59, 68: listener(...) *)

Definition M (A : Type) : Type := vars → A * vars * list call.

Global Instance M_ret : MRet M := λ A x v, (x, v, []).
Global Instance M_bind : MBind M := λ A B f m v,
  let '(x, v1, t1) := m v in
  let '(y, v2, t2) := f x v1 in
  (y, v2, t1 ++ t2).

Definition gets {A} (f : vars → A) : M A := λ v, (f v, v, []).
Definition modify (f : vars → vars) : M unit := λ v, (tt, f v, []).
Definition emit (c : call) : M unit := λ v, (tt, v, [c]).
Definition skip : M unit := mret tt.

(** ** The closures of one activation of [convertToAsyncStream] *)

Section Activation.

(** [self] numbers the activation.  Its [callback] and its [stramOn]
    (what [stream.on] held at line 41) are never inspected, only
    called: the trace entries [Callback] and [StramOn] stand for those
    calls, and [outgoing] below gives them their targets. *)
Variable self : nat.

(** Lines 13-18, the function returned by [callOnce(callback)]. *)
Definition asyncCallback (this : value) (args : list value) : M value :=
  emit (Gate this args);;
  c ← gets called;
  (if negb c then
     modify (set_called true);;
     emit (Callback (sloppy_this this) args)
   else skip);;
  mret VUndefined.

(** Lines 48-53, [function (err)]. *)
Definition item_done (args : list value) : M value :=
  let err := arg 0 args in
  modify (λ v, set_pending (pending v - 1) v);;
  d ← gets is_done;
  p ← gets pending;
  (if truthy err || d && (p =? 0) then
     asyncCallback VUndefined [err];; skip
   else skip);;
  mret VUndefined.

(** Lines 46-54, [function (data)]. *)
Definition data_wrapper (listener : value) (args : list value) : M value :=
  let data := arg 0 args in
  modify (λ v, set_pending (pending v + 1) v);;
  k ← gets items;
  modify (set_items (S k));;
  emit (Listener listener [data; VItemDone self k]);;
  mret VUndefined.

(** Lines 59-63, [function ()]. *)
Definition end_done : M value :=
  p ← gets pending;
  (if p =? 0 then asyncCallback VUndefined [];; skip else skip);;
  mret VUndefined.

(** Lines 57-64, [function ()]. *)
Definition end_wrapper (listener : value) : M value :=
  modify (set_is_done true);;
  k ← gets ends;
  modify (set_ends (S k));;
  emit (Listener listener [VEndDone self k]);;
  mret VUndefined.

(** Lines 67-69, [function (err)]. *)
Definition error_wrapper (listener : value) (args : list value) : M value :=
  let err := arg 0 args in
  emit (Listener listener [err; VGate self]);;
  mret VUndefined.

(** Lines 43-72, [function (event, listener)]: the [switch] has three
    cases and no [default]. *)
Definition on (this : value) (args : list value) : M value :=
  let event := arg 0 args in
  let listener := arg 1 args in
  (if case_str event "data" then
     emit (StramOn (sloppy_this this) [event; VDataWrap self listener])
   else if case_str event "end" then
     emit (StramOn (sloppy_this this) [event; VEndWrap self listener])
   else if case_str event "error" then
     emit (StramOn (sloppy_this this) [event; VErrWrap self listener])
   else skip);;
  mret VUndefined.

End Activation.

(** ** Invoking the closures *)

(** The function expressions of one activation. *)
Inductive closure : Type :=
| COn
| CGate
| CDataWrap (listener : value)
| CItemDone (k : nat)
| CEndWrap (listener : value)
| CEndDone (k : nat)
| CErrWrap (listener : value).

Definition clo (c : nat) (f : closure) : value :=
  match f with
  | COn => VOn c
  | CGate => VGate c
  | CDataWrap l => VDataWrap c l
  | CItemDone k => VItemDone c k
  | CEndWrap l => VEndWrap c l
  | CEndDone k => VEndDone c k
  | CErrWrap l => VErrWrap c l
  end.

Definition as_closure (v : value) : option (nat * closure) :=
  match v with
  | VOn c => Some (c, COn)
  | VGate c => Some (c, CGate)
  | VDataWrap c l => Some (c, CDataWrap l)
  | VItemDone c k => Some (c, CItemDone k)
  | VEndWrap c l => Some (c, CEndWrap l)
  | VEndDone c k => Some (c, CEndDone k)
  | VErrWrap c l => Some (c, CErrWrap l)
  | _ => None
  end.

(** One call of a closure by code outside [index.js]: the source (the
    wrappers), a handler (the completion functions, the gate) or the user
    of the stream ([on]). *)
Record invocation : Type := Invoke {
  target : closure;
  receiver : value;
  actuals : list value
}.

Section Reactions.

Variable self : nat.

Definition react (i : invocation) : M value :=
  match target i with
  | COn => on self (receiver i) (actuals i)
  | CGate => asyncCallback (receiver i) (actuals i)
  | CDataWrap l => data_wrapper self l (actuals i)
  | CItemDone _ => item_done (actuals i)
  | CEndWrap l => end_wrapper self l
  | CEndDone _ => end_done
  | CErrWrap l => error_wrapper self l (actuals i)
  end.

(** The state after an invocation and the calls it made. *)
Definition step (v : vars) (i : invocation) : vars * list call :=
  let '(_, v', t) := react i v in (v', t).

(** A sequence of invocations, from left to right. *)
Fixpoint run (v : vars) (tr : list invocation) : vars * list call :=
  match tr with
  | [] => (v, [])
  | i :: tr' =>
      let '(v1, t1) := step v i in
      let '(v2, t2) := run v1 tr' in
      (v2, t1 ++ t2)
  end.

Definition state_after (v : vars) (tr : list invocation) : vars :=
  fst (run v tr).
Definition trace_of (v : vars) (tr : list invocation) : list call :=
  snd (run v tr).

End Reactions.

(** A closure cannot be called before the function expression that
    creates it has been evaluated: the k-th completion function of line 48
    exists once [items] has passed k, the k-th one of line 59 once [ends]
    has.  (The wrappers and the gate are taken to be callable at any
    time, which only widens the sequences the properties cover.) *)
Definition exists_in (v : vars) (f : closure) : bool :=
  match f with
  | CItemDone k => bool_decide (k < items v)%nat
  | CEndDone k => bool_decide (k < ends v)%nat
  | _ => true
  end.

Fixpoint feasible (self : nat) (v : vars) (tr : list invocation) : bool :=
  match tr with
  | [] => true
  | i :: tr' =>
      exists_in v (target i)
      && feasible self (fst (step self v i)) tr'
  end.

(** Projections of a trace. *)
Definition callbacks (t : list call) : list (value * list value) :=
  omap (λ c, match c with Callback this args => Some (this, args) | _ => None end) t.

Definition gates (t : list call) : list (value * list value) :=
  omap (λ c, match c with Gate this args => Some (this, args) | _ => None end) t.

Definition stramOn_calls (t : list call) : list (value * list value) :=
  omap (λ c, match c with StramOn this args => Some (this, args) | _ => None end) t.

(** The per-item completion functions invoked in a sequence, and the
    number of items intercepted in it. *)
Definition completed (tr : list invocation) : list nat :=
  omap (λ i, match target i with CItemDone k => Some k | _ => None end) tr.

Definition arrived (tr : list invocation) : list value :=
  omap (λ i, match target i with CDataWrap l => Some l | _ => None end) tr.

(** ** The heap and [convertToAsyncStream] *)

(** What one activation of [convertToAsyncStream] (lines 36-75) holds:
    its second argument, the variable [stramOn] of line 41 and the
    mutable captured variables. *)
Record activation : Type := Activation {
  act_callback : value;
  act_stramOn : value;
  act_vars : vars
}.

(** An object is the map of the properties that can be read from it
    (its own and the inherited ones); reading a missing property gives
    [undefined], and an assignment writes the object's own property. *)
Record world : Type := World {
  heap : gmap loc (gmap string value);
  activations : list activation
}.

Definition get_prop (o : gmap string value) (p : string) : value :=
  default VUndefined (o !! p).

(** Lines 36-75.  [stream] is a reference to an object (the [@param
    {stream}]); the result is [None] when the reference is dangling. *)
Definition convertToAsyncStream (stream : loc) (callback : value) (w : world)
    : option (value * world) :=
  o ← heap w !! stream;
  let c := length (activations w) in
  let a := Activation callback (get_prop o "on") init_vars in
  Some (VObj stream,
        World (<[stream := <["on" := VOn c]> o]> (heap w))
              (activations w ++ [a])).

(** The callee, receiver and arguments of a call made at lines 16, 46,
    48, 57, 59, 67 or 68; a plain call [listener(...)] passes no
    receiver.  The callee is not run, also when it is itself a function
    value of [index.js] (a wrapper given as a listener, the [on] of an
    earlier conversion): running it is a further [invoke]. *)
Definition outgoing (a : activation) (c : call)
    : option (value * value * list value) :=
  match c with
  | Gate _ _ => None
  | Callback this args => Some (act_callback a, this, args)
  | StramOn this args => Some (act_stramOn a, this, args)
  | Listener l args => Some (l, VUndefined, args)
  end.

(** Calling a function value of [index.js]: the result, the calls its
    body makes (see [outgoing]), and the new world. *)
Definition invoke (f this : value) (args : list value) (w : world)
    : option (value * list (value * value * list value) * world) :=
  '(c, g) ← as_closure f;
  a ← activations w !! c;
  let '(r, v', t) := react c (Invoke g this args) (act_vars a) in
  Some (r, omap (outgoing a) t,
        World (heap w)
              (<[c := Activation (act_callback a) (act_stramOn a) v']>
                 (activations w))).

(** ** Vocabulary of the properties *)

(** What the callback receives when the first entry of the gate in a
    trace is let through. *)
Definition first_gate (t : list call) : list (value * list value) :=
  match gates t with
  | [] => []
  | (this, args) :: _ => [(sloppy_this this, args)]
  end.

Definition fired (t : list call) : bool :=
  match gates t with [] => false | _ => true end.

(** How many times the callback was applied to exactly the argument
    [err], as line 51 passes it. *)
Definition received (err : value) (t : list call) : nat :=
  length (filter (λ ca, ca.2 = [err]) (callbacks t)).

(** A per-item completion function invoked without an error. *)
Definition is_ok_done (i : invocation) : bool :=
  match target i with
  | CItemDone _ => negb (truthy (arg 0 (actuals i)))
  | _ => false
  end.


(** The completion function of line 59 exists only once the end wrapper
    has run, and the end wrapper sets [is_done], which nothing resets. *)
Definition end_latched (v : vars) : Prop :=
  ends v = 0%nat ∨ is_done v = true.

(** The completion functions of lines 48 and 59. *)
Definition is_completion (i : invocation) : bool :=
  match target i with
  | CItemDone _ | CEndDone _ => true
  | _ => false
  end.

(** The per-item handlers that were started and whose completion
    function has not been invoked. *)
Definition outstanding (v : vars) (tr : list invocation) : gset nat :=
  list_to_set (seq 0 (items v)) ∖ list_to_set (completed tr).

(** ** Whole sequences *)

(** An invocation that cannot report an error and is not an entry of the
    gate from outside: any closure but the gate, a per-item completion
    function only without an error. *)
Definition benign (i : invocation) : bool :=
  match target i with
  | CGate => false
  | CItemDone _ => negb (truthy (arg 0 (actuals i)))
  | _ => true
  end.

Definition is_arrival (i : invocation) : bool :=
  match target i with CDataWrap _ => true | _ => false end.

Definition is_end (i : invocation) : bool :=
  match target i with CEndWrap _ => true | _ => false end.

Definition is_end_done (i : invocation) : bool :=
  match target i with CEndDone _ => true | _ => false end.

(** An invocation without what its closure does not look at: which of
    the completion functions of lines 48 and 59 it is, the receiver
    (except for [on] and the gate, which pass it on) and the arguments
    beyond the parameters the function declares. *)
Definition essence (i : invocation) : invocation :=
  match target i with
  | COn => Invoke COn (sloppy_this (receiver i))
             [arg 0 (actuals i); arg 1 (actuals i)]
  | CGate => i
  | CDataWrap l => Invoke (CDataWrap l) VUndefined [arg 0 (actuals i)]
  | CItemDone _ => Invoke (CItemDone 0) VUndefined [arg 0 (actuals i)]
  | CEndWrap l => Invoke (CEndWrap l) VUndefined []
  | CEndDone _ => Invoke (CEndDone 0) VUndefined []
  | CErrWrap l => Invoke (CErrWrap l) VUndefined [arg 0 (actuals i)]
  end.

(** The listeners called in a trace, each with what the source emitted
    (the arguments before the completion function, which comes last). *)
Definition forwarded (t : list call) : list (value * list value) :=
  omap (λ c, match c with
             | Listener l args => Some (l, removelast args)
             | _ => None
             end) t.

(** The emissions of the source that reach the wrappers in a sequence:
    the listener of the wrapper and the payload. *)
Definition emissions (tr : list invocation) : list (value * list value) :=
  omap (λ i, match target i with
             | CDataWrap l | CErrWrap l => Some (l, [arg 0 (actuals i)])
             | CEndWrap l => Some (l, [])
             | _ => None
             end) tr.

(** ** Scenarios *)

(** A stream with a data listener and an error listener.  One item
    arrives and its handler is still running when the source emits an
    error; the error listener passes that error to its completion
    function; then the item handler fails with an error of its own.

<<
    s.on("data", l); s.on("error", h);
    // source: emit("data", "chunk")   -> l("chunk", done0)
    // source: emit("error", "EPIPE")  -> h("EPIPE", asyncCallback)
    // h:      asyncCallback("EPIPE")  -> callback("EPIPE")
    // l:      done0("bad chunk")      -> absorbed
>> *)
Definition late_item_error : list invocation :=
  [ Invoke COn (VObj 1%positive) [VStr "data"; VExt 0];
    Invoke COn (VObj 1%positive) [VStr "error"; VExt 1];
    Invoke (CDataWrap (VExt 0)) (VObj 1%positive) [VStr "chunk"];
    Invoke (CErrWrap (VExt 1)) (VObj 1%positive) [VStr "EPIPE"];
    Invoke CGate VUndefined [VStr "EPIPE"];
    Invoke (CItemDone 0) VUndefined [VStr "bad chunk"] ].

(** A stream with a data listener and an error listener.  One item
    arrives and its handler is still running when the source emits an
    error; the error listener logs the error and completes without one.

<<
    s.on("data", l); s.on("error", h);
    // source: emit("data", "chunk")   -> l("chunk", done0)
    // source: emit("error", "EPIPE")  -> h("EPIPE", asyncCallback)
    // h:      asyncCallback()         -> callback()
>> *)
Definition swallowed_error : list invocation :=
  [ Invoke COn (VObj 1%positive) [VStr "data"; VExt 0];
    Invoke COn (VObj 1%positive) [VStr "error"; VExt 1];
    Invoke (CDataWrap (VExt 0)) (VObj 1%positive) [VStr "chunk"];
    Invoke (CErrWrap (VExt 1)) (VObj 1%positive) [VStr "EPIPE"];
    Invoke CGate VUndefined [] ].

(** An item handler fails; afterwards the source emits an error and the
    error listener passes it to its completion function.

<<
    s.on("data", l); s.on("error", h);
    // source: emit("data", "chunk")   -> l("chunk", done0)
    // l:      done0("bad chunk")      -> callback("bad chunk")
    // source: emit("error", "EPIPE")  -> h("EPIPE", asyncCallback)
    // h:      asyncCallback("EPIPE")  -> absorbed
>> *)
Definition error_after_item_failure : list invocation :=
  [ Invoke COn (VObj 1%positive) [VStr "data"; VExt 0];
    Invoke COn (VObj 1%positive) [VStr "error"; VExt 1];
    Invoke (CDataWrap (VExt 0)) (VObj 1%positive) [VStr "chunk"];
    Invoke (CItemDone 0) VUndefined [VStr "bad chunk"];
    Invoke (CErrWrap (VExt 1)) (VObj 1%positive) [VStr "EPIPE"];
    Invoke CGate VUndefined [VStr "EPIPE"] ].

(** A stream object whose [on] is a function from outside [index.js],
    before and after [convertToAsyncStream(s, cb)]. *)
Definition plain_stream : world :=
  World {[ 1%positive := {[ "on" := VExt 7 ]} ]} [].

Definition wrapped_stream : world :=
  World {[ 1%positive := {[ "on" := VOn 0 ]} ]}
        [Activation (VExt 9) (VExt 7) init_vars].

(** * Properties *)

(** ** Equations of the closures *)

Local Arguments arg : simpl never.
Local Arguments sloppy_this : simpl never.
Local Arguments truthy : simpl never.
Local Arguments case_str : simpl never.

Ltac run_body :=
  unfold step, react, item_done, data_wrapper, end_done, end_wrapper,
    error_wrapper, on; unfold asyncCallback;
  unfold skip, emit, modify, gets, mbind, mret, M_bind, M_ret; cbn.

Lemma as_closure_clo c f : as_closure (clo c f) = Some (c, f).
Proof. by destruct f. Qed.

Lemma step_gate self v this args :
  step self v (Invoke CGate this args) =
    if called v then (v, [Gate this args])
    else (set_called true v,
          [Gate this args; Callback (sloppy_this this) args]).
Proof. run_body. by destruct (called v). Qed.

Lemma step_item_done self v k this args :
  step self v (Invoke (CItemDone k) this args) =
    let v1 := set_pending (pending v - 1) v in
    if truthy (arg 0 args) || is_done v && (pending v - 1 =? 0)
    then step self v1 (Invoke CGate VUndefined [arg 0 args])
    else (v1, []).
Proof.
  run_body.
  destruct (truthy (arg 0 args) || is_done v && (pending v - 1 =? 0)); cbn;
    [by destruct (called v)|done].
Qed.

Lemma step_data self v l this args :
  step self v (Invoke (CDataWrap l) this args) =
    (set_items (S (items v)) (set_pending (pending v + 1) v),
     [Listener l [arg 0 args; VItemDone self (items v)]]).
Proof. by run_body. Qed.

Lemma step_end self v l this args :
  step self v (Invoke (CEndWrap l) this args) =
    (set_ends (S (ends v)) (set_is_done true v),
     [Listener l [VEndDone self (ends v)]]).
Proof. by run_body. Qed.

Lemma step_end_done self v k this args :
  step self v (Invoke (CEndDone k) this args) =
    if pending v =? 0 then step self v (Invoke CGate VUndefined [])
    else (v, []).
Proof.
  run_body. destruct (pending v =? 0); cbn; [by destruct (called v)|done].
Qed.

Lemma step_error self v l this args :
  step self v (Invoke (CErrWrap l) this args) =
    (v, [Listener l [arg 0 args; VGate self]]).
Proof. by run_body. Qed.

Lemma step_on self v this args :
  step self v (Invoke COn this args) =
    (v,
     if case_str (arg 0 args) "data" then
       [StramOn (sloppy_this this) [arg 0 args; VDataWrap self (arg 1 args)]]
     else if case_str (arg 0 args) "end" then
       [StramOn (sloppy_this this) [arg 0 args; VEndWrap self (arg 1 args)]]
     else if case_str (arg 0 args) "error" then
       [StramOn (sloppy_this this) [arg 0 args; VErrWrap self (arg 1 args)]]
     else []).
Proof.
  run_body.
  by destruct (case_str (arg 0 args) "data"), (case_str (arg 0 args) "end"),
    (case_str (arg 0 args) "error").
Qed.

(** ** Sequences of invocations *)

Lemma state_after_cons self v i tr :
  state_after self v (i :: tr) = state_after self (fst (step self v i)) tr.
Proof.
  unfold state_after; cbn. destruct (step self v i) as [v1 t1]; cbn.
  by destruct (run self v1 tr).
Qed.

Lemma trace_of_cons self v i tr :
  trace_of self v (i :: tr) =
    snd (step self v i) ++ trace_of self (fst (step self v i)) tr.
Proof.
  unfold trace_of; cbn. destruct (step self v i) as [v1 t1]; cbn.
  by destruct (run self v1 tr).
Qed.

Lemma state_after_app self v tr1 tr2 :
  state_after self v (tr1 ++ tr2) =
    state_after self (state_after self v tr1) tr2.
Proof.
  revert v; induction tr1 as [|i tr1 IH]; intros v; [done|].
  rewrite <- app_comm_cons, !state_after_cons. apply IH.
Qed.

Lemma trace_of_app self v tr1 tr2 :
  trace_of self v (tr1 ++ tr2) =
    trace_of self v tr1 ++ trace_of self (state_after self v tr1) tr2.
Proof.
  revert v; induction tr1 as [|i tr1 IH]; intros v; [done|].
  rewrite <- app_comm_cons, !trace_of_cons, state_after_cons, IH.
  by rewrite app_assoc.
Qed.

Lemma feasible_app self v tr1 tr2 :
  feasible self v (tr1 ++ tr2) =
    feasible self v tr1 && feasible self (state_after self v tr1) tr2.
Proof.
  revert v; induction tr1 as [|i tr1 IH]; intros v; [done|].
  rewrite <- app_comm_cons, state_after_cons; cbn.
  by rewrite IH, andb_assoc.
Qed.

(** ** The single-fire gate *)

Ltac by_cases_of_step v args :=
  destruct v as [d p c n e];
  rewrite ?step_on, ?step_gate, ?step_data, ?step_item_done, ?step_end,
    ?step_end_done, ?step_error; cbn;
  repeat match goal with
    | |- context [if ?b then _ else _] => destruct b eqn:?; cbn
    end;
  rewrite ?step_gate; cbn; try by destruct c.

Lemma step_callbacks self v i :
  callbacks (snd (step self v i)) =
    if called v then [] else first_gate (snd (step self v i)).
Proof. destruct i as [[ | |l|k|l|k|l] this args]; by_cases_of_step v args. Qed.

Lemma step_called self v i :
  called (fst (step self v i)) = called v || fired (snd (step self v i)).
Proof. destruct i as [[ | |l|k|l|k|l] this args]; by_cases_of_step v args. Qed.

Lemma callbacks_app t1 t2 : callbacks (t1 ++ t2) = callbacks t1 ++ callbacks t2.
Proof. apply omap_app. Qed.

Lemma gates_app t1 t2 : gates (t1 ++ t2) = gates t1 ++ gates t2.
Proof. apply omap_app. Qed.

Lemma first_gate_app t1 t2 :
  first_gate (t1 ++ t2) = if fired t1 then first_gate t1 else first_gate t2.
Proof.
  unfold first_gate, fired. rewrite gates_app.
  by destruct (gates t1) as [|[??]?].
Qed.

Lemma fired_app t1 t2 : fired (t1 ++ t2) = fired t1 || fired t2.
Proof. unfold fired. rewrite gates_app. by destruct (gates t1). Qed.

Lemma run_called self v tr :
  called (state_after self v tr) = called v || fired (trace_of self v tr).
Proof.
  revert v; induction tr as [|i tr IH]; intros v.
  - cbn. by rewrite orb_false_r.
  - rewrite state_after_cons, trace_of_cons, fired_app, IH, step_called.
    by rewrite orb_assoc.
Qed.

Lemma run_callbacks self v tr :
  callbacks (trace_of self v tr) =
    if called v then [] else first_gate (trace_of self v tr).
Proof.
  revert v; induction tr as [|i tr IH]; intros v.
  - by destruct (called v).
  - rewrite trace_of_cons, callbacks_app, first_gate_app, IH.
    rewrite step_callbacks, step_called.
    destruct (called v); cbn; [done|].
    destruct (fired (snd (step self v i))) eqn:Hf; cbn.
    + by rewrite app_nil_r.
    + unfold first_gate, fired in *.
      by destruct (gates (snd (step self v i))).
Qed.

Lemma first_gate_length t : (length (first_gate t) ≤ 1)%nat.
Proof. unfold first_gate. destruct (gates t) as [|[??]?]; cbn; lia. Qed.

(** C1. The callback is applied at most once.  An entry of the gate while
    [called] is false sets [called] and applies the callback to the
    receiver and the arguments of that entry; an entry while [called] is
    true changes nothing and calls nothing.  Over any sequence of
    invocations of the closures of an activation, in any order, the calls
    of the callback are therefore: none if the gate was already closed,
    otherwise the one made for the first entry of the gate, with that
    entry's arguments. *)
Theorem C1_callback_at_most_once (self : nat) :
  (∀ v this args,
     step self v (Invoke CGate this args) =
       if called v then (v, [Gate this args])
       else (set_called true v,
             [Gate this args; Callback (sloppy_this this) args]))
  ∧ (∀ v tr,
       callbacks (trace_of self v tr) =
         if called v then [] else first_gate (trace_of self v tr))
  ∧ (∀ v tr, (length (callbacks (trace_of self v tr)) ≤ 1)%nat).
Proof.
  split; [|split].
  - intros. apply step_gate.
  - intros. apply run_callbacks.
  - intros v tr. rewrite run_callbacks.
    destruct (called v); [cbn; lia|apply first_gate_length].
Qed.

(** ** Errors of per-item handlers *)

(** C2, as stated, fails: in [late_item_error] a per-item completion
    function is invoked with the truthy error "bad chunk" and the
    callback never receives it; its only call is the earlier one with
    "EPIPE". *)
Lemma C2_counterexample :
  feasible 0 init_vars late_item_error = true
  ∧ last late_item_error
      = Some (Invoke (CItemDone 0) VUndefined [VStr "bad chunk"])
  ∧ truthy (VStr "bad chunk") = true
  ∧ callbacks (trace_of 0 init_vars late_item_error)
      = [(VGlobal, [VStr "EPIPE"])]
  ∧ received (VStr "bad chunk") (trace_of 0 init_vars late_item_error) = 0%nat
  ∧ received (VStr "bad chunk") (trace_of 0 init_vars late_item_error) ≠ 1%nat.
Proof. repeat split; vm_compute; congruence. Qed.

(** C2, amended.  When a per-item completion function is invoked with a
    truthy error, [pending] is decremented and the gate is entered with
    that error in that same invocation, whatever [pending] and [is_done]
    are.  If the gate has not fired before, the callback receives that
    error there and, whatever follows, it is its only call; if the gate
    has fired before, the error is absorbed. *)
Theorem C2_item_error_enters_gate
    (self : nat) (v : vars) (k : nat) (this : value) (args : list value)
    (tr : list invocation) :
  truthy (arg 0 args) = true →
  let i := Invoke (CItemDone k) this args in
  step self v i
    = step self (set_pending (pending v - 1) v)
        (Invoke CGate VUndefined [arg 0 args])
  ∧ gates (snd (step self v i)) = [(VUndefined, [arg 0 args])]
  ∧ callbacks (snd (step self v i))
      = (if called v then [] else [(VGlobal, [arg 0 args])])
  ∧ callbacks (trace_of self v (i :: tr))
      = (if called v then [] else [(VGlobal, [arg 0 args])]).
Proof.
  intros Herr i.
  assert (Hstep : step self v i
    = step self (set_pending (pending v - 1) v)
        (Invoke CGate VUndefined [arg 0 args])).
  { unfold i. rewrite step_item_done; cbn zeta. by rewrite Herr. }
  assert (Hg : gates (snd (step self v i)) = [(VUndefined, [arg 0 args])]).
  { rewrite Hstep, step_gate; cbn. by destruct (called v). }
  split; [done|]. split; [done|]. split.
  - rewrite Hstep, step_gate; cbn. by destruct (called v).
  - rewrite run_callbacks. destruct (called v); [done|].
    rewrite trace_of_cons, first_gate_app.
    unfold fired, first_gate. by rewrite Hg.
Qed.

Lemma C2_item_error_enters_gate_witness :
  callbacks (trace_of 0 (Vars false 2 false 2 0)
      [Invoke (CItemDone 0) VUndefined [VStr "E"];
       Invoke (CItemDone 1) VUndefined [VStr "F"]])
    = [(VGlobal, [VStr "E"])].
Proof.
  exact (proj2 (proj2 (proj2
    (C2_item_error_enters_gate 0 (Vars false 2 false 2 0) 0 VUndefined
       [VStr "E"] [Invoke (CItemDone 1) VUndefined [VStr "F"]] eq_refl)))).
Defined.

(** ** Draining after the end of the source *)

Lemma step_ok_done self v i :
  is_ok_done i = true →
  step self v i =
    let v1 := set_pending (pending v - 1) v in
    if is_done v && (pending v - 1 =? 0)
    then step self v1 (Invoke CGate VUndefined [arg 0 (actuals i)])
    else (v1, []).
Proof.
  destruct i as [[ | |l|k|l|k|l] this args]; cbn; try done.
  intros Hok%negb_true_iff. rewrite step_item_done; cbn zeta.
  by rewrite Hok.
Qed.

(** Completions without error that leave some handler pending only
    decrement [pending]. *)
Lemma run_ok_dones self v ds :
  forallb is_ok_done ds = true →
  Z.of_nat (length ds) < pending v →
  run self v ds = (set_pending (pending v - Z.of_nat (length ds)) v, []).
Proof.
  revert v; induction ds as [|d ds IH]; intros v Hok Hlen.
  - cbn. rewrite Z.sub_0_r. by destruct v.
  - cbn [forallb] in Hok. apply andb_true_iff in Hok as [Hd Hds].
    cbn [length] in Hlen. cbn [run].
    rewrite (step_ok_done _ _ _ Hd); cbn zeta.
    rewrite (proj2 (Z.eqb_neq (pending v - 1) 0)) by lia.
    rewrite andb_false_r, IH; [|done|cbn; lia].
    destruct v as [b p c n e]; cbn.
    by replace (p - 1 - Z.of_nat (length ds))
      with (p - Z.of_nat (S (length ds))) by lia.
Qed.

(** C3. The end wrapper runs while [n >= 1] per-item handlers are
    pending; some of them ([dones1]) complete without error, the end
    handler completes while at least one is still pending, and the others
    ([dones2], then [d]) complete without error; [n] completions in all.
    Nothing enters the gate before the last completion [d]; [d] finds
    [is_done] set and brings [pending] to zero, and enters the gate once,
    with its falsy argument (no error).  Unless the gate had fired before
    the end wrapper ran, the callback is applied exactly once, by [d],
    with no error. *)
Theorem C3_last_completion_fires
    (self : nat) (v : vars) (l : value) (k : nat)
    (this_e this_d : value) (args_e args_d : list value)
    (dones1 dones2 : list invocation) (d : invocation) :
  forallb is_ok_done (dones1 ++ dones2 ++ [d]) = true →
  pending v = Z.of_nat (length dones1 + length dones2 + 1) →
  let before :=
    Invoke (CEndWrap l) this_e args_e
      :: dones1 ++ Invoke (CEndDone k) this_d args_d :: dones2 in
  let v1 := state_after self v before in
  truthy (arg 0 (actuals d)) = false
  ∧ gates (trace_of self v before) = []
  ∧ callbacks (trace_of self v before) = []
  ∧ is_done v1 = true ∧ pending v1 = 1
  ∧ gates (snd (step self v1 d)) = [(VUndefined, [arg 0 (actuals d)])]
  ∧ gates (trace_of self v (before ++ [d]))
      = [(VUndefined, [arg 0 (actuals d)])]
  ∧ callbacks (trace_of self v (before ++ [d]))
      = (if called v then [] else [(VGlobal, [arg 0 (actuals d)])])
  ∧ pending (state_after self v (before ++ [d])) = 0.
Proof.
  intros Hok Hn before v1.
  rewrite !forallb_app in Hok.
  apply andb_true_iff in Hok as [Hok1 Hok2].
  apply andb_true_iff in Hok2 as [Hok2 Hd].
  cbn [forallb] in Hd. rewrite andb_true_r in Hd.
  pose (va := set_ends (S (ends v)) (set_is_done true v)).
  pose (vb := set_pending (pending va - Z.of_nat (length dones1)) va).
  pose (vc := set_pending (pending vb - Z.of_nat (length dones2)) vb).
  assert (Hrun : run self v before = (vc, [Listener l [VEndDone self (ends v)]])).
  { unfold before. cbn [run]. rewrite step_end. fold va.
    assert (Hsplit : ∀ w, run self w (dones1 ++ Invoke (CEndDone k) this_d args_d :: dones2)
      = (state_after self w (dones1 ++ Invoke (CEndDone k) this_d args_d :: dones2),
         trace_of self w (dones1 ++ Invoke (CEndDone k) this_d args_d :: dones2))).
    { intros w. unfold state_after, trace_of. by destruct (run self w _). }
    rewrite Hsplit, state_after_app, trace_of_app.
    unfold state_after at 2. unfold trace_of at 1. unfold state_after at 2.
    rewrite (run_ok_dones self va dones1 Hok1) by (unfold va; cbn; lia).
    cbn [fst snd]. fold vb.
    rewrite state_after_cons, trace_of_cons, step_end_done.
    rewrite (proj2 (Z.eqb_neq (pending vb) 0)) by (unfold vb, va; cbn; lia).
    cbn [fst snd]. unfold state_after, trace_of.
    rewrite (run_ok_dones self vb dones2 Hok2) by (unfold vb, va; cbn; lia).
    done. }
  assert (Hv1 : v1 = vc) by (unfold v1, state_after; by rewrite Hrun).
  assert (Ht : trace_of self v before = [Listener l [VEndDone self (ends v)]])
    by (unfold trace_of; by rewrite Hrun).
  assert (Hdone : is_done v1 = true) by (by rewrite Hv1).
  assert (Hpend : pending v1 = 1) by (rewrite Hv1; unfold vc, vb, va; cbn; lia).
  assert (Hcalled : called v1 = called v) by (by rewrite Hv1).
  assert (Hfalsy : truthy (arg 0 (actuals d)) = false).
  { destruct d as [[ | |?|?|?|?|?] ? ?]; cbn in Hd; try done.
    by apply negb_true_iff. }
  assert (Hstep : step self v1 d
    = step self (set_pending 0 v1) (Invoke CGate VUndefined [arg 0 (actuals d)])).
  { rewrite (step_ok_done _ _ _ Hd); cbn zeta. by rewrite Hdone, Hpend. }
  assert (Hg : gates (snd (step self v1 d)) = [(VUndefined, [arg 0 (actuals d)])]).
  { rewrite Hstep, step_gate; cbn. by destruct (called v1). }
  assert (Hlast : trace_of self v1 [d] = snd (step self v1 d)).
  { by rewrite trace_of_cons, app_nil_r. }
  repeat split; try done.
  - by rewrite Ht.
  - by rewrite Ht.
  - rewrite trace_of_app; fold v1. by rewrite gates_app, Ht, Hlast.
  - rewrite trace_of_app; fold v1.
    rewrite callbacks_app, Ht, Hlast; cbn [callbacks omap app].
    rewrite Hstep, step_gate; cbn. rewrite Hcalled. by destruct (called v).
  - rewrite state_after_app, state_after_cons. fold v1. cbn.
    rewrite Hstep, step_gate; cbn. by destruct (called v1).
Qed.

(** Scenario C: three items arrive, the first completes, the end arrives
    and its handler completes while two are pending, then those two
    complete. *)
Lemma C3_last_completion_fires_witness :
  callbacks
    (trace_of 0
       (state_after 0 init_vars
          [Invoke (CDataWrap (VExt 0)) VUndefined [VNum 1];
           Invoke (CDataWrap (VExt 0)) VUndefined [VNum 2];
           Invoke (CDataWrap (VExt 0)) VUndefined [VNum 3];
           Invoke (CItemDone 0) VUndefined []])
       ([Invoke (CEndWrap (VExt 1)) VUndefined [];
         Invoke (CEndDone 0) VUndefined [];
         Invoke (CItemDone 1) VUndefined []]
        ++ [Invoke (CItemDone 2) VUndefined []]))
    = [(VGlobal, [VUndefined])].
Proof.
  destruct (C3_last_completion_fires 0
    (state_after 0 init_vars
       [Invoke (CDataWrap (VExt 0)) VUndefined [VNum 1];
        Invoke (CDataWrap (VExt 0)) VUndefined [VNum 2];
        Invoke (CDataWrap (VExt 0)) VUndefined [VNum 3];
        Invoke (CItemDone 0) VUndefined []])
    (VExt 1) 0 VUndefined VUndefined [] [] []
    [Invoke (CItemDone 1) VUndefined []]
    (Invoke (CItemDone 2) VUndefined []) eq_refl eq_refl)
    as (_ & _ & _ & _ & _ & _ & _ & H & _).
  exact H.
Defined.

(** ** The end of the source *)




(** ** When success is reported *)

(** C5, as stated, fails: in [swallowed_error] the callback is applied
    with no error, by the last invocation, at a point where the end of the
    source has not been observed and one per-item handler is pending. *)
Lemma C5_counterexample :
  feasible 0 init_vars swallowed_error = true
  ∧ callbacks (trace_of 0 init_vars (removelast swallowed_error)) = []
  ∧ callbacks (trace_of 0 init_vars swallowed_error) = [(VGlobal, [])]
  ∧ is_done (state_after 0 init_vars swallowed_error) = false
  ∧ pending (state_after 0 init_vars swallowed_error) = 1.
Proof. repeat split; vm_compute; congruence. Qed.

Lemma step_end_latched self v i :
  end_latched v → end_latched (fst (step self v i)).
Proof.
  unfold end_latched.
  destruct i as [[ | |l|k|l|k|l] this args]; by_cases_of_step v args;
    try tauto; cbn in *; try tauto.
  all: destruct c; cbn; tauto.
Qed.

Lemma run_end_latched self v tr :
  end_latched v → end_latched (state_after self v tr).
Proof.
  revert v; induction tr as [|i tr IH]; intros v Hv; [done|].
  rewrite state_after_cons. by apply IH, step_end_latched.
Qed.

Lemma completion_success_when_drained
    (self : nat) (tr : list invocation) (i : invocation)
    (this : value) (args : list value) :
  feasible self init_vars (tr ++ [i]) = true →
  is_completion i = true →
  let v := state_after self init_vars tr in
  callbacks (snd (step self v i)) = [(this, args)] →
  truthy (arg 0 args) = false →
  is_done (fst (step self v i)) = true
  ∧ pending (fst (step self v i)) = 0.
Proof.
  intros Hf Hi v Hcb Hok.
  rewrite feasible_app in Hf. apply andb_true_iff in Hf as [_ Hf].
  fold v in Hf. cbn in Hf. rewrite andb_true_r in Hf.
  assert (Hl : end_latched v).
  { apply run_end_latched. by left. }
  clearbody v. clear tr. destruct v as [dn p c n e].
  destruct i as [[ | |l|k|l|k|l] this_i args_i]; cbn in Hi; try done.
  - rewrite step_item_done in *; cbn in Hcb |- *.
    destruct (truthy (arg 0 args_i)) eqn:Herr; cbn [orb] in *.
    + rewrite step_gate in Hcb. destruct c; cbn in Hcb; [done|].
      injection Hcb as _ <-.
      change (arg 0 [arg 0 args_i]) with (arg 0 args_i) in Hok. congruence.
    + destruct (dn && (p - 1 =? 0)) eqn:Hc; [|done].
      apply andb_true_iff in Hc as [Hd Hp%Z.eqb_eq].
      rewrite step_gate. destruct c; cbn; [done|by split].
  - cbn in Hf. apply bool_decide_eq_true in Hf.
    destruct Hl as [Hl|Hl]; cbn in Hl; [lia|].
    rewrite step_end_done in *; cbn in Hcb |- *.
    destruct (p =? 0) eqn:Hp; [|done].
    apply Z.eqb_eq in Hp.
    rewrite step_gate. destruct c; cbn; [done|by split].
Qed.

(** The wrappers and [on] never apply the callback themselves. *)
Lemma step_other_no_callback self v i :
  is_completion i = false →
  target i ≠ CGate →
  callbacks (snd (step self v i)) = [].
Proof.
  destruct i as [[ | |l|k|l|k|l] this args]; cbn; intros Hc Hg; try done;
    by_cases_of_step v args.
Qed.

(** C5, amended.  The callback is applied only by a per-item completion,
    by an end completion or by an entry of the gate from outside.  (1) In
    every sequence of invocations on a fresh activation, when a per-item
    completion or an end completion applies the callback with no error (a
    falsy first argument, or none), then at that point [is_done] is set
    and [pending] is zero.  (2) The error wrapper hands the gate itself
    to the error listener, and an entry of the gate from outside leaves
    [is_done] and [pending] as they are and, whatever they are, applies
    the callback to the entry's arguments (so with no error, if the
    listener passes none) when the gate has not fired before, and is
    absorbed when it has. *)
Theorem C5_completions_report_success_when_drained (self : nat) :
  (∀ v i, is_completion i = false → target i ≠ CGate →
          callbacks (snd (step self v i)) = [])
  ∧ (∀ tr i this args,
       feasible self init_vars (tr ++ [i]) = true →
       is_completion i = true →
       callbacks (snd (step self (state_after self init_vars tr) i))
         = [(this, args)] →
       truthy (arg 0 args) = false →
       is_done (fst (step self (state_after self init_vars tr) i)) = true
       ∧ pending (fst (step self (state_after self init_vars tr) i)) = 0)
  ∧ (∀ v l this args,
       step self v (Invoke (CErrWrap l) this args)
       = (v, [Listener l [arg 0 args; VGate self]]))
  ∧ (∀ v this args,
       callbacks (snd (step self v (Invoke CGate this args)))
         = (if called v then [] else [(sloppy_this this, args)])
       ∧ is_done (fst (step self v (Invoke CGate this args))) = is_done v
       ∧ pending (fst (step self v (Invoke CGate this args))) = pending v).
Proof.
  split; [intros; by apply step_other_no_callback|].
  split; [intros; by eapply completion_success_when_drained|].
  split; [intros; apply step_error|].
  intros v this args. rewrite step_gate. by destruct (called v).
Qed.

(** Scenario B: an item arrives and completes, then the end arrives and
    its handler completes. *)
Lemma C5_completions_report_success_when_drained_witness :
  is_done (fst (step 0
    (state_after 0 init_vars
       [Invoke (CDataWrap (VExt 0)) VUndefined [VNum 1];
        Invoke (CItemDone 0) VUndefined [];
        Invoke (CEndWrap (VExt 1)) VUndefined []])
    (Invoke (CEndDone 0) VUndefined []))) = true
  ∧ pending (fst (step 0
    (state_after 0 init_vars
       [Invoke (CDataWrap (VExt 0)) VUndefined [VNum 1];
        Invoke (CItemDone 0) VUndefined [];
        Invoke (CEndWrap (VExt 1)) VUndefined []])
    (Invoke (CEndDone 0) VUndefined []))) = 0.
Proof.
  apply (proj1 (proj2 (C5_completions_report_success_when_drained 0))
    [Invoke (CDataWrap (VExt 0)) VUndefined [VNum 1];
     Invoke (CItemDone 0) VUndefined [];
     Invoke (CEndWrap (VExt 1)) VUndefined []]
    (Invoke (CEndDone 0) VUndefined []) VGlobal []);
    reflexivity.
Defined.

(** ** Errors of the source *)

(** C6, as stated, fails in its last part: in [error_after_item_failure]
    the source emits an error, the error listener is called with it and
    with the gate, and what the listener signals ("EPIPE") is not the
    outcome given to the callback, which is the earlier "bad chunk". *)
Lemma C6_counterexample :
  feasible 0 init_vars error_after_item_failure = true
  ∧ trace_of 0 init_vars error_after_item_failure !! 5%nat
      = Some (Listener (VExt 1) [VStr "EPIPE"; VGate 0])
  ∧ gates (trace_of 0 init_vars error_after_item_failure)
      = [(VUndefined, [VStr "bad chunk"]); (VUndefined, [VStr "EPIPE"])]
  ∧ callbacks (trace_of 0 init_vars error_after_item_failure)
      = [(VGlobal, [VStr "bad chunk"])]
  ∧ received (VStr "EPIPE") (trace_of 0 init_vars error_after_item_failure)
      = 0%nat.
Proof.
  repeat split; vm_compute; congruence.
Qed.

(** C6, amended.  The error wrapper changes no variable and calls the
    error listener with the error and with [asyncCallback] itself.  An
    entry of that function applies the callback to the entry's arguments
    when the gate has not fired before, and then it is the only call of
    the callback, whatever follows; when the gate has fired before, the
    entry is absorbed. *)
Theorem C6_error_listener_completes_through_gate
    (self : nat) (l : value) (this : value) (args : list value) :
  (∀ v, step self v (Invoke (CErrWrap l) this args)
        = (v, [Listener l [arg 0 args; VGate self]]))
  ∧ as_closure (VGate self) = Some (self, CGate)
  ∧ (∀ v this' args' tr,
       callbacks (trace_of self v (Invoke CGate this' args' :: tr))
       = if called v then [] else [(sloppy_this this', args')]).
Proof.
  split; [intros; apply step_error|]. split; [done|].
  intros v this' args' tr. rewrite run_callbacks.
  destruct (called v) eqn:Hc; [done|].
  rewrite trace_of_cons, first_gate_app, step_gate, Hc. done.
Qed.

(** ** The pending counter *)

Lemma completed_app tr1 tr2 : completed (tr1 ++ tr2) = completed tr1 ++ completed tr2.
Proof. apply omap_app. Qed.

Lemma arrived_app tr1 tr2 : arrived (tr1 ++ tr2) = arrived tr1 ++ arrived tr2.
Proof. apply omap_app. Qed.

Lemma step_counts self v i :
  pending (fst (step self v i))
    = pending v + Z.of_nat (length (arrived [i]))
      - Z.of_nat (length (completed [i]))
  ∧ items (fst (step self v i)) = (items v + length (arrived [i]))%nat.
Proof.
  destruct i as [[ | |l|k|l|k|l] this args]; by_cases_of_step v args;
    try (split; lia).
  all: destruct c; cbn; split; lia.
Qed.

Lemma run_counts self v tr :
  pending (state_after self v tr)
    = pending v + Z.of_nat (length (arrived tr))
      - Z.of_nat (length (completed tr))
  ∧ items (state_after self v tr) = (items v + length (arrived tr))%nat.
Proof.
  revert v; induction tr as [|i tr IH]; intros v.
  - cbn. split; lia.
  - rewrite state_after_cons.
    destruct (IH (fst (step self v i))) as [-> ->].
    destruct (step_counts self v i) as [-> ->].
    change (i :: tr) with ([i] ++ tr).
    rewrite arrived_app, completed_app, !length_app. split; lia.
Qed.

(** Only completion functions that exist are invoked. *)
Lemma feasible_completed self v tr k :
  feasible self v tr = true →
  k ∈ completed tr → (k < items (state_after self v tr))%nat.
Proof.
  revert v; induction tr as [|i tr IH]; intros v Hf Hk.
  - by apply elem_of_nil in Hk.
  - cbn in Hf. apply andb_true_iff in Hf as [Hi Hf].
    rewrite state_after_cons.
    change (i :: tr) with ([i] ++ tr) in Hk.
    rewrite completed_app in Hk. apply elem_of_app in Hk as [Hk|Hk].
    + destruct i as [[ | |l|k'|l|k'|l] this args]; cbn in Hk;
        try by apply elem_of_nil in Hk.
      apply list_elem_of_singleton in Hk as ->.
      cbn in Hi. apply bool_decide_eq_true in Hi.
      destruct (run_counts self (fst (step self v (Invoke (CItemDone k') this args))) tr)
        as [_ ->].
      destruct (step_counts self v (Invoke (CItemDone k') this args)) as [_ ->].
      lia.
    + by apply IH.
Qed.

(** C7. The data wrapper adds one to [pending], a per-item completion
    function subtracts one, and nothing else changes it.  Over a sequence
    of invocations on a fresh activation in which every per-item
    completion function is invoked at most once (and only once it
    exists), at every point [pending] is the number of items intercepted
    minus the number of completions, it is not negative, and it is the
    number of handlers started and not completed. *)
Theorem C7_pending_counts_outstanding
    (self : nat) (tr1 tr2 : list invocation) :
  feasible self init_vars (tr1 ++ tr2) = true →
  NoDup (completed (tr1 ++ tr2)) →
  let v := state_after self init_vars tr1 in
  (∀ w i, pending (fst (step self w i))
          = match target i with
            | CDataWrap _ => pending w + 1
            | CItemDone _ => pending w - 1
            | _ => pending w
            end)
  ∧ pending v
      = Z.of_nat (length (arrived tr1)) - Z.of_nat (length (completed tr1))
  ∧ 0 ≤ pending v
  ∧ pending v = Z.of_nat (size (outstanding v tr1)).
Proof.
  intros Hf Hnd v.
  rewrite feasible_app in Hf. apply andb_true_iff in Hf as [Hf _].
  rewrite completed_app in Hnd. apply NoDup_app in Hnd as (Hnd & _ & _).
  destruct (run_counts self init_vars tr1) as [Hp Hi].
  fold v in Hp, Hi. cbn in Hp, Hi.
  assert (Hsub : ∀ k, k ∈ completed tr1 → k ∈ seq 0 (items v)).
  { intros k Hk. apply elem_of_seq.
    pose proof (feasible_completed self init_vars tr1 k Hf Hk). fold v in H. lia. }
  assert (Hsize : size (outstanding v tr1)
                  = (items v - length (completed tr1))%nat).
  { unfold outstanding. rewrite size_difference.
    - rewrite !size_list_to_set, length_seq; [done|done|apply NoDup_seq].
    - intros k Hk%elem_of_list_to_set. by apply elem_of_list_to_set, Hsub. }
  assert (Hle : (length (completed tr1) ≤ items v)%nat).
  { rewrite <- (length_seq (items v) 0).
    by apply submseteq_length, NoDup_submseteq. }
  split.
  { intros w i. destruct (step_counts self w i) as [-> _].
    destruct i as [[ | |l|k|l|k|l] this args]; cbn; lia. }
  split; [lia|]. split; lia.
Qed.

Lemma C7_pending_counts_outstanding_witness :
  pending (state_after 0 init_vars
    [Invoke (CDataWrap (VExt 0)) VUndefined [VNum 1];
     Invoke (CDataWrap (VExt 0)) VUndefined [VNum 2];
     Invoke (CItemDone 1) VUndefined []]) = 1
  ∧ 0 ≤ pending (state_after 0 init_vars
    [Invoke (CDataWrap (VExt 0)) VUndefined [VNum 1];
     Invoke (CDataWrap (VExt 0)) VUndefined [VNum 2];
     Invoke (CItemDone 1) VUndefined []]).
Proof.
  destruct (C7_pending_counts_outstanding 0
    [Invoke (CDataWrap (VExt 0)) VUndefined [VNum 1];
     Invoke (CDataWrap (VExt 0)) VUndefined [VNum 2];
     Invoke (CItemDone 1) VUndefined []]
    [Invoke (CItemDone 0) VUndefined [VStr "E"]])
    as (_ & H1 & H2 & _).
  - reflexivity.
  - apply (bool_decide_unpack _). reflexivity.
  - split; [exact H1|exact H2].
Defined.

(** ** The replaced [on] and the conversion *)

(** C8, as stated, fails: after the conversion, [s.on("close", f)]
    makes no call at all, where delegation would call the original [on]
    (here [VExt 7]) with [s], "close" and [f]; the registration of a
    "data" listener, for comparison, does reach the original [on]. *)
Lemma C8_counterexample :
  convertToAsyncStream 1%positive (VExt 9) plain_stream
    = Some (VObj 1%positive, wrapped_stream)
  ∧ invoke (VOn 0) (VObj 1%positive) [VStr "close"; VExt 2] wrapped_stream
    = Some (VUndefined, [], wrapped_stream)
  ∧ (λ r, r.1.2)
      <$> invoke (VOn 0) (VObj 1%positive) [VStr "close"; VExt 2] wrapped_stream
    ≠ Some [(VExt 7, VObj 1%positive, [VStr "close"; VExt 2])]
  ∧ (λ r, r.1.2)
      <$> invoke (VOn 0) (VObj 1%positive) [VStr "data"; VExt 2] wrapped_stream
    = Some [(VExt 7, VObj 1%positive, [VStr "data"; VDataWrap 0 (VExt 2)])].
Proof. repeat split; vm_compute; congruence. Qed.

Lemma case_str_spec e s : case_str e s = true ↔ e = VStr s.
Proof.
  destruct e; unfold case_str; try (split; [discriminate|congruence]).
  rewrite String.eqb_eq. split; congruence.
Qed.

(** C8, amended.  The replaced [on] calls the original [on] exactly for
    the events "data", "end" and "error" (a case is taken exactly when
    the event is that string), each time once, with the receiver, the
    event and a wrapper of the listener in place of the listener.  For
    any other event it calls nothing, changes nothing and returns
    [undefined]: the registration is dropped. *)
Theorem C8_other_events_are_dropped
    (self : nat) (v : vars) (this : value) (args : list value) :
  (∀ e s, case_str e s = true ↔ e = VStr s)
  ∧ (∀ l, react self (Invoke COn this [VStr "data"; l]) v
          = (VUndefined, v,
             [StramOn (sloppy_this this) [VStr "data"; VDataWrap self l]]))
  ∧ (∀ l, react self (Invoke COn this [VStr "end"; l]) v
          = (VUndefined, v,
             [StramOn (sloppy_this this) [VStr "end"; VEndWrap self l]]))
  ∧ (∀ l, react self (Invoke COn this [VStr "error"; l]) v
          = (VUndefined, v,
             [StramOn (sloppy_this this) [VStr "error"; VErrWrap self l]]))
  ∧ (case_str (arg 0 args) "data" = false →
     case_str (arg 0 args) "end" = false →
     case_str (arg 0 args) "error" = false →
     react self (Invoke COn this args) v = (VUndefined, v, [])
     ∧ stramOn_calls (snd (step self v (Invoke COn this args))) = []).
Proof.
  split; [apply case_str_spec|].
  do 3 (split; [done|]).
  intros Hd He Hr. rewrite step_on, Hd, He, Hr. split; [|done].
  unfold react; cbn [target receiver actuals]. unfold on.
  rewrite Hd, He, Hr. done.
Qed.

Lemma C8_other_events_are_dropped_witness :
  react 0 (Invoke COn (VObj 1%positive) [VStr "close"; VExt 2]) init_vars
    = (VUndefined, init_vars, []).
Proof.
  destruct (C8_other_events_are_dropped 0 init_vars (VObj 1%positive)
              [VStr "close"; VExt 2]) as (_ & _ & _ & _ & H).
  exact (proj1 (H eq_refl eq_refl eq_refl)).
Defined.

(** Calling a closure of one activation leaves the heap and the other
    activations as they are. *)
Lemma invoke_frame f this args w r out w' c g :
  invoke f this args w = Some (r, out, w') →
  as_closure f = Some (c, g) →
  heap w' = heap w
  ∧ ∀ c', c' ≠ c → activations w' !! c' = activations w !! c'.
Proof.
  unfold invoke. intros Hi Hf. rewrite Hf in Hi; cbn in Hi.
  destruct (activations w !! c) as [a|]; cbn in Hi; [|done].
  destruct (react c (Invoke g this args) (act_vars a)) as [[r' v'] t].
  injection Hi as <- <- <-. split; [done|].
  intros c' Hne; cbn. by rewrite list_lookup_insert_ne.
Qed.

(** C9. Applied to a reference to an object of the heap,
    [convertToAsyncStream] returns that same reference.  In the new heap
    the object has the [on] of a new activation as its property "on" and
    its other properties as before; the other objects are as before; the
    new activation holds the callback, the former value of the property
    "on" and fresh variables. *)
Theorem C9_returns_the_same_stream
    (stream : loc) (callback : value) (w : world) (o : gmap string value) :
  heap w !! stream = Some o →
  let c := length (activations w) in
  ∃ w' o',
    convertToAsyncStream stream callback w = Some (VObj stream, w')
    ∧ heap w' !! stream = Some o'
    ∧ (∀ p, get_prop o' p = if decide (p = "on") then VOn c else get_prop o p)
    ∧ (∀ l, l ≠ stream → heap w' !! l = heap w !! l)
    ∧ activations w' !! c
        = Some (Activation callback (get_prop o "on") init_vars)
    ∧ (∀ c', (c' < c)%nat → activations w' !! c' = activations w !! c').
Proof.
  intros Ho c. unfold convertToAsyncStream. rewrite Ho; cbn.
  eexists _, _; split; [reflexivity|]; cbn.
  split; [by rewrite lookup_insert_eq|].
  split.
  { intros p. unfold get_prop. rewrite lookup_insert.
    destruct (decide ("on" = p)) as [<-|Hne]; [done|].
    destruct (decide (p = "on")); [congruence|done]. }
  split; [intros l Hl; by rewrite lookup_insert_ne|].
  split.
  - by rewrite lookup_app_r, Nat.sub_diag.
  - intros c' Hc'. by rewrite lookup_app_l.
Qed.

Lemma C9_returns_the_same_stream_witness :
  fst <$> convertToAsyncStream 1%positive (VExt 9) plain_stream
    = Some (VObj 1%positive).
Proof.
  destruct (C9_returns_the_same_stream 1%positive (VExt 9) plain_stream
              {[ "on" := VExt 7 ]} eq_refl) as (w' & o' & -> & _).
  reflexivity.
Defined.

(** C10. Whatever its receiver and its arguments, and whatever the state
    of the activation, the replaced [on] returns [undefined], which is
    not a reference to an object: not the stream. *)
Theorem C10_on_returns_undefined
    (self : nat) (v : vars) (this : value) (args : list value) :
  (react self (Invoke COn this args) v).1.1 = VUndefined
  ∧ (∀ l, (react self (Invoke COn this args) v).1.1 ≠ VObj l)
  ∧ (∀ w, (λ r, r.1.1) <$> invoke (VOn self) this args w
          = (λ _, VUndefined) <$> activations w !! self).
Proof.
  assert (H : ∀ u, (on self this args u).1.1 = VUndefined).
  { intros u. unfold on.
    by destruct (case_str (arg 0 args) "data"),
      (case_str (arg 0 args) "end"), (case_str (arg 0 args) "error"). }
  split; [apply H|]. split.
  { intros l. change ((on self this args v).1.1 ≠ VObj l). by rewrite H. }
  intros w. unfold invoke; cbn.
  destruct (activations w !! self) as [a|]; cbn; [|done].
  specialize (H (act_vars a)).
  destruct (on self this args (act_vars a)) as [[r v'] t].
  cbn in *. by subst r.
Qed.

(** * Further properties of [index.js] *)

(** ** The latches *)

Lemma step_is_done self v i :
  is_done (fst (step self v i)) = is_done v || is_end i.
Proof.
  destruct i as [[ | |l|k|l|k|l] this args]; by_cases_of_step v args;
    rewrite ?orb_false_r, ?orb_true_r; try done.
  all: by destruct c.
Qed.

Lemma run_is_done self v tr :
  is_done (state_after self v tr) = is_done v || existsb is_end tr.
Proof.
  revert v; induction tr as [|i tr IH]; intros v.
  - cbn. by rewrite orb_false_r.
  - rewrite state_after_cons, IH, step_is_done; cbn [existsb].
    by rewrite orb_assoc.
Qed.

(** X1. [is_done] (lines 38, 58) and [called] (lines 11, 15) are
    latches.  After any sequence of invocations [is_done] is set exactly
    when it was set before or an end wrapper ran, and [called] exactly
    when it was set before or the gate was entered: nothing in the file
    resets either of them. *)
Theorem X1_latches_are_never_reset
    (self : nat) (v : vars) (tr : list invocation) :
  is_done (state_after self v tr) = is_done v || existsb is_end tr
  ∧ called (state_after self v tr) = called v || fired (trace_of self v tr).
Proof. split; [apply run_is_done|apply run_called]. Qed.

(** ** What a closure does not look at *)

Lemma step_essence self v i : step self v (essence i) = step self v i.
Proof.
  destruct i as [[ | |l|k|l|k|l] this args]; cbn [essence target actuals receiver].
  - rewrite !step_on.
    change (arg 0 [arg 0 args; arg 1 args]) with (arg 0 args).
    change (arg 1 [arg 0 args; arg 1 args]) with (arg 1 args).
    by destruct this.
  - done.
  - by rewrite !step_data.
  - by rewrite !step_item_done.
  - by rewrite !step_end.
  - by rewrite !step_end_done.
  - by rewrite !step_error.
Qed.

Lemma run_essence self v tr : run self v (essence <$> tr) = run self v tr.
Proof.
  revert v; induction tr as [|i tr IH]; intros v; [done|].
  cbn [fmap list_fmap run]. rewrite step_essence.
  destruct (step self v i) as [v1 t1]. by rewrite IH.
Qed.

(** X2. The completion functions are not tied to their item.  Two
    sequences of invocations that differ only in which per-item (or end)
    completion function is invoked, in receivers that are not passed on
    and in surplus arguments lead to the same variables and make the
    same calls.  So the file has no guard against a second completion of
    the same item: it counts as the completion of another one. *)
Theorem X2_completions_are_interchangeable
    (self : nat) (v : vars) (tr tr' : list invocation) :
  essence <$> tr = essence <$> tr' →
  run self v tr = run self v tr'.
Proof.
  intros H. by rewrite <- (run_essence self v tr), H, run_essence.
Qed.

Lemma X2_completions_are_interchangeable_witness :
  run 0 (Vars true 2 false 2 1)
    [Invoke (CItemDone 0) VUndefined []; Invoke (CItemDone 0) VUndefined []]
  = run 0 (Vars true 2 false 2 1)
      [Invoke (CItemDone 0) VUndefined []; Invoke (CItemDone 1) (VObj 1%positive) []].
Proof.
  apply (X2_completions_are_interchangeable 0 (Vars true 2 false 2 1)
    [Invoke (CItemDone 0) VUndefined []; Invoke (CItemDone 0) VUndefined []]
    [Invoke (CItemDone 0) VUndefined []; Invoke (CItemDone 1) (VObj 1%positive) []]).
  reflexivity.
Defined.

(** ** Emissions are always handed on *)

Lemma forwarded_app t1 t2 : forwarded (t1 ++ t2) = forwarded t1 ++ forwarded t2.
Proof. apply omap_app. Qed.

Lemma step_forwarded self v i :
  forwarded (snd (step self v i)) = emissions [i].
Proof.
  destruct i as [[ | |l|k|l|k|l] this args]; by_cases_of_step v args.
Qed.

(** X3. The wrappers hand every emission on: whatever the variables
    are (also after the callback has been applied), the listeners called
    over a sequence of invocations are, in order, the listeners of the
    wrappers invoked, each with the payload its wrapper received (none
    for "end").  Nothing is dropped, reordered or held back. *)
Theorem X3_every_emission_reaches_its_listener
    (self : nat) (v : vars) (tr : list invocation) :
  forwarded (trace_of self v tr) = emissions tr.
Proof.
  revert v; induction tr as [|i tr IH]; intros v; [done|].
  rewrite trace_of_cons, forwarded_app, IH, step_forwarded.
  change (i :: tr) with ([i] ++ tr). unfold emissions. by rewrite omap_app.
Qed.

(** ** Sequences without errors *)

Lemma arrived_nil tr : existsb is_arrival tr = false → arrived tr = [].
Proof.
  induction tr as [|[[ | |l|k|l|k|l] this args] tr IH]; cbn; try done.
Qed.

(** Without an error, only a completion that leaves [pending] at zero
    enters the gate. *)
Lemma step_benign_gate self v i :
  benign i = true →
  gates (snd (step self v i)) = [] ∨ pending (fst (step self v i)) = 0.
Proof.
  destruct i as [[ | |l|k|l|k|l] this args]; cbn; intros Hb; try done.
  - left. by_cases_of_step v args.
  - left. by_cases_of_step v args.
  - apply negb_true_iff in Hb. rewrite step_item_done; cbn zeta.
    rewrite Hb; cbn [orb].
    destruct (is_done v && (pending v - 1 =? 0)) eqn:Hc; [|by left].
    apply andb_true_iff in Hc as [_ Hp%Z.eqb_eq]. right.
    rewrite step_gate. by destruct (called _).
  - left. by_cases_of_step v args.
  - rewrite step_end_done. destruct (pending v =? 0) eqn:Hp; [|by left].
    apply Z.eqb_eq in Hp. right. rewrite step_gate. by destruct (called _).
  - left. by_cases_of_step v args.
Qed.

(** Without an error, the gate is entered with no receiver and with no
    error. *)
Lemma step_benign_falsy self v i :
  benign i = true →
  Forall (λ g, g.1 = VUndefined ∧ truthy (arg 0 g.2) = false)
    (gates (snd (step self v i))).
Proof.
  destruct i as [[ | |l|k|l|k|l] this args]; intros Hb; cbn in Hb; try done;
    by_cases_of_step v args; destruct c; cbn;
    repeat constructor; cbn; try reflexivity.
  all: apply negb_true_iff; exact Hb.
Qed.

Lemma run_benign_falsy self v tr :
  forallb benign tr = true →
  Forall (λ g, g.1 = VUndefined ∧ truthy (arg 0 g.2) = false)
    (gates (trace_of self v tr)).
Proof.
  revert v; induction tr as [|i tr IH]; intros v Hb; [constructor|].
  cbn in Hb. apply andb_true_iff in Hb as [Hi Hb].
  rewrite trace_of_cons, gates_app. apply Forall_app. split.
  - by apply step_benign_falsy.
  - by apply IH.
Qed.

(** Before the end of the source, nothing enters the gate without an
    error. *)
Lemma run_quiet_before_end self v tr :
  forallb benign tr = true →
  existsb is_end tr = false →
  feasible self v tr = true →
  is_done v = false → ends v = 0%nat →
  gates (trace_of self v tr) = [].
Proof.
  revert v; induction tr as [|i tr IH]; intros v Hb He Hf Hd Hn; [done|].
  cbn in Hb, He, Hf.
  apply andb_true_iff in Hb as [Hi Hb].
  apply orb_false_iff in He as [Hie He].
  apply andb_true_iff in Hf as [Hif Hf].
  rewrite trace_of_cons, gates_app.
  destruct v as [d p c n e]; cbn in Hd, Hn; subst d e.
  destruct i as [[ | |l|k|l|k|l] this args]; cbn in Hi, Hie, Hif; try done.
  - rewrite step_on in *; cbn [fst snd] in *. rewrite (IH _ Hb He Hf) by done.
    by destruct (case_str (arg 0 args) "data"),
      (case_str (arg 0 args) "end"), (case_str (arg 0 args) "error").
  - rewrite step_data in *; cbn [fst snd] in *. by rewrite (IH _ Hb He Hf).
  - apply negb_true_iff in Hi.
    rewrite step_item_done in *; cbn in Hf |- *. rewrite Hi in *; cbn in Hf |- *.
    by rewrite (IH _ Hb He Hf).
  - rewrite step_error in *; cbn [fst snd] in *. by rewrite (IH _ Hb He Hf).
Qed.

(** After the end of the source, when no further item arrives, the
    completions bring [pending] to zero and the end handler completes (or
    some handler was pending), the gate is entered. *)
Lemma run_drain_fires self v tr :
  forallb benign tr = true →
  existsb is_arrival tr = false →
  is_done v = true →
  pending (state_after self v tr) = 0 →
  0 < pending v ∨ existsb is_end_done tr = true →
  fired (trace_of self v tr) = true.
Proof.
  revert v; induction tr as [|i tr IH]; intros v Hb Ha Hd Hp Hor.
  - cbn in *. destruct Hor; [lia|done].
  - cbn in Hb, Ha. apply andb_true_iff in Hb as [Hi Hb].
    apply orb_false_iff in Ha as [Hia Ha].
    rewrite state_after_cons in Hp. rewrite trace_of_cons, fired_app.
    assert (Hle : pending (state_after self (fst (step self v i)) tr)
                  ≤ pending (fst (step self v i))).
    { destruct (run_counts self (fst (step self v i)) tr) as [-> _].
      rewrite (arrived_nil tr Ha); cbn. lia. }
    destruct (fired (snd (step self v i))) eqn:Hfi; [done|]; cbn [orb].
    assert (Hd' : is_done (fst (step self v i)) = true).
    { by rewrite step_is_done, Hd. }
    apply IH; try done.
    destruct v as [d p c n e]; cbn in Hd; subst d.
    destruct i as [[ | |l|k|l|k|l] this args]; cbn in Hi, Hia, Hor;
      try discriminate.
    + rewrite step_on; cbn. exact Hor.
    + apply negb_true_iff in Hi.
      rewrite step_item_done in *; cbn in Hfi, Hp, Hle |- *.
      rewrite Hi in *; cbn in Hfi, Hp, Hle |- *.
      destruct (p - 1 =? 0) eqn:Hp1.
      * rewrite step_gate in Hfi. by destruct c.
      * apply Z.eqb_neq in Hp1. cbn in *.
        destruct Hor as [Hor|Hor]; [left; lia|by right].
    + rewrite step_end; cbn. exact Hor.
    + rewrite step_end_done in *; cbn in Hfi, Hp, Hle |- *.
      destruct (p =? 0) eqn:Hp0.
      * rewrite step_gate in Hfi. by destruct c.
      * apply Z.eqb_neq in Hp0. cbn in *. left. lia.
    + rewrite step_error; cbn. exact Hor.
Qed.

(** X4. A stream that is drained reports success, once.  On a fresh
    activation take any sequence of invocations without errors and
    without entries of the gate from outside (registrations, emissions,
    completions in any order) in which: the source ends; no item arrives
    after that; the end handler completes; and there are as many per-item
    completions as items.  Then nothing is reported up to and including
    the end wrapper, and over the whole sequence the callback is applied
    exactly once, with no error. *)
Theorem X4_drained_stream_reports_success_once
    (self : nat) (before after : list invocation)
    (l this : value) (args : list value) :
  let e := Invoke (CEndWrap l) this args in
  forallb benign (before ++ e :: after) = true →
  feasible self init_vars (before ++ e :: after) = true →
  existsb is_end before = false →
  existsb is_arrival after = false →
  existsb is_end_done after = true →
  length (arrived before) = length (completed (before ++ after)) →
  callbacks (trace_of self init_vars (before ++ [e])) = []
  ∧ ∃ args',
      callbacks (trace_of self init_vars (before ++ e :: after))
        = [(VGlobal, args')]
      ∧ truthy (arg 0 args') = false.
Proof.
  intros e Hb Hf He Ha Hed Hn.
  assert (Hb' := Hb). rewrite forallb_app in Hb'.
  apply andb_true_iff in Hb' as [Hbb Hba]. cbn [forallb] in Hba.
  apply andb_true_iff in Hba as [_ Hba].
  assert (Hf' := Hf). rewrite feasible_app in Hf'.
  apply andb_true_iff in Hf' as [Hfb _].
  assert (Hq : gates (trace_of self init_vars before) = []).
  { by apply run_quiet_before_end. }
  assert (Hqe : gates (trace_of self init_vars (before ++ [e])) = []).
  { rewrite trace_of_app, gates_app, Hq, trace_of_cons. unfold e.
    by rewrite step_end. }
  split.
  { rewrite run_callbacks; cbn. unfold first_gate. by rewrite Hqe. }
  set (ve := state_after self init_vars (before ++ [e])).
  assert (Hdone : is_done ve = true).
  { unfold ve. rewrite run_is_done, existsb_app; cbn. by rewrite orb_true_r. }
  assert (Hpend : pending (state_after self ve after) = 0).
  { unfold ve. rewrite <- state_after_app, <- app_assoc; cbn [app].
    destruct (run_counts self init_vars (before ++ e :: after)) as [-> _].
    change (e :: after) with ([e] ++ after).
    rewrite !arrived_app, !completed_app, !length_app in *.
    rewrite (arrived_nil after Ha). cbn. lia. }
  assert (Hfired : fired (trace_of self init_vars (before ++ e :: after)) = true).
  { change (e :: after) with ([e] ++ after).
    rewrite app_assoc, trace_of_app, fired_app. fold ve.
    rewrite (run_drain_fires self ve after Hba Ha Hdone Hpend (or_intror Hed)).
    apply orb_true_r. }
  pose proof (run_benign_falsy self init_vars _ Hb) as Hfalsy.
  rewrite run_callbacks; cbn. unfold first_gate, fired in *.
  destruct (gates (trace_of self init_vars (before ++ e :: after)))
    as [|[t a] gs]; [done|].
  apply Forall_cons in Hfalsy as [[Ht Hfa] _]. cbn in Ht, Hfa. subst t.
  by exists a.
Qed.

(** Two items; the first completes before the end, the second after the
    end handler has completed. *)
Lemma X4_drained_stream_reports_success_once_witness :
  ∃ args',
    callbacks (trace_of 0 init_vars
      ([Invoke COn (VObj 1%positive) [VStr "data"; VExt 0];
        Invoke (CDataWrap (VExt 0)) VUndefined [VNum 1];
        Invoke (CDataWrap (VExt 0)) VUndefined [VNum 2];
        Invoke (CItemDone 0) VUndefined []]
       ++ Invoke (CEndWrap (VExt 1)) VUndefined []
       :: [Invoke (CEndDone 0) VUndefined [];
           Invoke (CItemDone 1) VUndefined []]))
      = [(VGlobal, args')]
    ∧ truthy (arg 0 args') = false.
Proof.
  apply (X4_drained_stream_reports_success_once 0
    [Invoke COn (VObj 1%positive) [VStr "data"; VExt 0];
     Invoke (CDataWrap (VExt 0)) VUndefined [VNum 1];
     Invoke (CDataWrap (VExt 0)) VUndefined [VNum 2];
     Invoke (CItemDone 0) VUndefined []]
    [Invoke (CEndDone 0) VUndefined [];
     Invoke (CItemDone 1) VUndefined []]
    (VExt 1) VUndefined []); reflexivity.
Defined.

(** ** A handler that never completes *)

Lemma run_items_mono self v tr :
  (items v ≤ items (state_after self v tr))%nat.
Proof. destruct (run_counts self v tr) as [_ ->]. lia. Qed.

(** While a handler that was started has not completed, [pending] is at
    least one. *)
Lemma pending_lower_bound self tr k0 :
  feasible self init_vars tr = true →
  NoDup (completed tr) →
  (k0 < items (state_after self init_vars tr))%nat →
  k0 ∉ completed tr →
  1 ≤ pending (state_after self init_vars tr).
Proof.
  intros Hf Hnd Hk Hnot.
  destruct (run_counts self init_vars tr) as [Hp Hi]. cbn in Hp, Hi.
  assert (Hlen : (length (k0 :: completed tr)
                  ≤ length (seq 0 (items (state_after self init_vars tr))))%nat).
  { apply submseteq_length, NoDup_submseteq.
    - by apply NoDup_cons.
    - intros k [->|Hin]%elem_of_cons; apply elem_of_seq; [lia|].
      pose proof (feasible_completed self init_vars tr k Hf Hin). lia. }
  rewrite length_seq in Hlen. cbn [length] in Hlen. lia.
Qed.

(** Without an error, nothing enters the gate as long as [pending] is
    not zero after any of the invocations. *)
Lemma run_benign_quiet self v rest :
  forallb benign rest = true →
  (∀ p i q, rest = p ++ i :: q →
            pending (state_after self v (p ++ [i])) ≠ 0) →
  gates (trace_of self v rest) = [].
Proof.
  revert v; induction rest as [|i rest IH]; intros v Hb Hp; [done|].
  cbn in Hb. apply andb_true_iff in Hb as [Hi Hb].
  rewrite trace_of_cons, gates_app.
  destruct (step_benign_gate self v i Hi) as [->|H0].
  - cbn. apply IH; [done|].
    intros p j q ->. specialize (Hp (i :: p) j q eq_refl).
    by rewrite <- app_comm_cons, state_after_cons in Hp.
  - specialize (Hp [] i rest eq_refl). cbn [app] in Hp.
    rewrite state_after_cons in Hp. done.
Qed.

(** X5. No report while a handler is outstanding.  Take a sequence of
    invocations on a fresh activation in which no per-item completion
    function is invoked twice, and a handler that was started in its
    first part [before] and whose completion function is never invoked.
    If the second part [rest] has no errors and no entries of the gate
    from outside, nothing enters the gate during [rest]: the callback is
    applied no more than it was in [before], however long [rest] is,
    whether or not the source ends in it. *)
Theorem X5_no_report_while_a_handler_is_outstanding
    (self : nat) (before rest : list invocation) (k0 : nat) :
  feasible self init_vars (before ++ rest) = true →
  NoDup (completed (before ++ rest)) →
  forallb benign rest = true →
  (k0 < items (state_after self init_vars before))%nat →
  k0 ∉ completed (before ++ rest) →
  gates (trace_of self (state_after self init_vars before) rest) = []
  ∧ callbacks (trace_of self init_vars (before ++ rest))
    = callbacks (trace_of self init_vars before).
Proof.
  intros Hf Hnd Hb Hk Hnot.
  assert (Hq : gates (trace_of self (state_after self init_vars before) rest) = []).
  { apply run_benign_quiet; [done|]. intros p i q ->.
    rewrite <- state_after_app.
    assert (1 ≤ pending (state_after self init_vars (before ++ p ++ [i]))); [|lia].
    replace (before ++ p ++ i :: q) with ((before ++ p ++ [i]) ++ q) in *
      by (by rewrite <- !app_assoc).
    rewrite feasible_app in Hf. apply andb_true_iff in Hf as [Hf _].
    rewrite completed_app in Hnd, Hnot.
    apply NoDup_app in Hnd as (Hnd & _ & _).
    apply pending_lower_bound with (k0 := k0); try done.
    - rewrite state_after_app.
      pose proof (run_items_mono self (state_after self init_vars before) (p ++ [i])).
      lia.
    - intros Hin. apply Hnot, elem_of_app. by left. }
  split; [done|].
  rewrite trace_of_app, callbacks_app.
  rewrite (run_callbacks self (state_after self init_vars before) rest).
  unfold first_gate. rewrite Hq.
  destruct (called _); by rewrite app_nil_r.
Qed.

(** Two items arrive; the second completes, the source ends and the end
    handler completes; the first never completes. *)
Lemma X5_no_report_while_a_handler_is_outstanding_witness :
  callbacks (trace_of 0 init_vars
    ([Invoke (CDataWrap (VExt 0)) VUndefined [VNum 1];
      Invoke (CDataWrap (VExt 0)) VUndefined [VNum 2]]
     ++ [Invoke (CItemDone 1) VUndefined [];
         Invoke (CEndWrap (VExt 1)) VUndefined [];
         Invoke (CEndDone 0) VUndefined []]))
  = callbacks (trace_of 0 init_vars
      [Invoke (CDataWrap (VExt 0)) VUndefined [VNum 1];
       Invoke (CDataWrap (VExt 0)) VUndefined [VNum 2]]).
Proof.
  refine (proj2 (X5_no_report_while_a_handler_is_outstanding 0
    [Invoke (CDataWrap (VExt 0)) VUndefined [VNum 1];
     Invoke (CDataWrap (VExt 0)) VUndefined [VNum 2]]
    [Invoke (CItemDone 1) VUndefined [];
     Invoke (CEndWrap (VExt 1)) VUndefined [];
     Invoke (CEndDone 0) VUndefined []]
    0%nat _ _ _ _ _)).
  - reflexivity.
  - apply (bool_decide_unpack _). reflexivity.
  - reflexivity.
  - vm_compute. lia.
  - apply (bool_decide_unpack _). reflexivity.
Defined.

(** ** Converting a stream twice *)

Lemma invoke_closure f this args w c g a :
  as_closure f = Some (c, g) →
  activations w !! c = Some a →
  invoke f this args w
  = Some ((react c (Invoke g this args) (act_vars a)).1.1,
          omap (outgoing a) (snd (step c (act_vars a) (Invoke g this args))),
          World (heap w)
            (<[c := Activation (act_callback a) (act_stramOn a)
                      (fst (step c (act_vars a) (Invoke g this args)))]>
               (activations w))).
Proof.
  intros Hf Ha. unfold invoke, step. rewrite Hf; cbn. rewrite Ha; cbn.
  by destruct (react c (Invoke g this args) (act_vars a)) as [[r v'] t].
Qed.

Lemma sloppy_this_idemp this : sloppy_this (sloppy_this this) = sloppy_this this.
Proof. by destruct this. Qed.

Lemma world_eta w : World (heap w) (activations w) = w.
Proof. by destruct w. Qed.

(** X7. Converting the same stream twice nests the wrappers.  After
    [convertToAsyncStream(s, cb1)] and [convertToAsyncStream(s, cb2)],
    [s.on] is the [on] of the second activation, whose [stramOn] is the
    [on] of the first, whose [stramOn] is the original.  A "data"
    registration goes through both to the original [on], the listener
    wrapped by the second activation and that wrapper wrapped by the
    first.  When the source then calls the registered function, each
    activation counts one pending item, and the listener is called once,
    with the completion function of the second activation only: the one
    of the first activation was passed to the second's wrapper, which
    declares no parameter for it. *)
Theorem X7_converting_twice_nests
    (stream : loc) (cb1 cb2 : value) (w : world) (o : gmap string value)
    (l d this this' : value) :
  heap w !! stream = Some o →
  let c := length (activations w) in
  let orig := get_prop o "on" in
  ∃ w1 w2 w3 w4,
    convertToAsyncStream stream cb1 w = Some (VObj stream, w1)
    ∧ convertToAsyncStream stream cb2 w1 = Some (VObj stream, w2)
    ∧ (λ o2, get_prop o2 "on") <$> heap w2 !! stream = Some (VOn (S c))
    ∧ activations w2 !! c = Some (Activation cb1 orig init_vars)
    ∧ activations w2 !! S c = Some (Activation cb2 (VOn c) init_vars)
    ∧ invoke (VOn (S c)) this [VStr "data"; l] w2
      = Some (VUndefined,
              [(VOn c, sloppy_this this, [VStr "data"; VDataWrap (S c) l])],
              w2)
    ∧ invoke (VOn c) (sloppy_this this) [VStr "data"; VDataWrap (S c) l] w2
      = Some (VUndefined,
              [(orig, sloppy_this this,
                [VStr "data"; VDataWrap c (VDataWrap (S c) l)])],
              w2)
    ∧ invoke (VDataWrap c (VDataWrap (S c) l)) this' [d] w2
      = Some (VUndefined,
              [(VDataWrap (S c) l, VUndefined, [d; VItemDone c 0])], w3)
    ∧ invoke (VDataWrap (S c) l) VUndefined [d; VItemDone c 0] w3
      = Some (VUndefined, [(l, VUndefined, [d; VItemDone (S c) 0])], w4)
    ∧ act_vars <$> activations w4 !! c = Some (Vars false 1 false 1 0)
    ∧ act_vars <$> activations w4 !! S c = Some (Vars false 1 false 1 0).
Proof.
  intros Ho c orig.
  set (a1 := Activation cb1 orig init_vars).
  set (a2 := Activation cb2 (VOn c) init_vars).
  set (o1 := <["on" := VOn c]> o).
  set (w1 := World (<[stream := o1]> (heap w)) (activations w ++ [a1])).
  set (w2 := World (<[stream := <["on" := VOn (S c)]> o1]> (heap w1))
               (activations w1 ++ [a2])).
  assert (Hc1 : convertToAsyncStream stream cb1 w = Some (VObj stream, w1)).
  { unfold convertToAsyncStream. by rewrite Ho. }
  assert (Hc2 : convertToAsyncStream stream cb2 w1 = Some (VObj stream, w2)).
  { assert (Hlen : length (activations w ++ [a1]) = S c).
    { rewrite length_app; cbn. unfold c. lia. }
    assert (Hon : get_prop o1 "on" = VOn c).
    { unfold o1, get_prop. by rewrite lookup_insert_eq. }
    unfold convertToAsyncStream. cbn [heap w1]. rewrite lookup_insert_eq; cbn.
    by rewrite Hlen, Hon. }
  assert (Hl1 : activations w2 !! c = Some a1).
  { cbn. rewrite lookup_app_l by (rewrite length_app; cbn; lia).
    by rewrite lookup_app_r, Nat.sub_diag. }
  assert (Hl2 : activations w2 !! S c = Some a2).
  { cbn. rewrite lookup_app_r by (rewrite length_app; cbn; lia).
    rewrite length_app; cbn.
    by replace (S c - (length (activations w) + 1))%nat with 0%nat
      by (unfold c; lia). }
  set (a1' := Activation cb1 orig (Vars false 1 false 1 0)).
  set (a2' := Activation cb2 (VOn c) (Vars false 1 false 1 0)).
  set (w3 := World (heap w2) (<[c := a1']> (activations w2))).
  set (w4 := World (heap w3) (<[S c := a2']> (activations w3))).
  exists w1, w2, w3, w4.
  split; [done|]. split; [done|]. split.
  { cbn. rewrite lookup_insert_eq; cbn. unfold get_prop.
    by rewrite lookup_insert_eq. }
  split; [done|]. split; [done|]. split.
  { rewrite (invoke_closure (VOn (S c)) _ _ _ (S c) COn a2 eq_refl Hl2).
    change (Some (VUndefined,
                  [(VOn c, sloppy_this this, [VStr "data"; VDataWrap (S c) l])],
                  World (heap w2) (<[S c := a2]> (activations w2)))
            = Some (VUndefined,
                  [(VOn c, sloppy_this this, [VStr "data"; VDataWrap (S c) l])],
                  w2)).
    by rewrite (list_insert_id _ _ _ Hl2), world_eta. }
  split.
  { rewrite (invoke_closure (VOn c) _ _ _ c COn a1 eq_refl Hl1).
    change (Some (VUndefined,
                  [(orig, sloppy_this (sloppy_this this),
                    [VStr "data"; VDataWrap c (VDataWrap (S c) l)])],
                  World (heap w2) (<[c := a1]> (activations w2)))
            = Some (VUndefined,
                  [(orig, sloppy_this this,
                    [VStr "data"; VDataWrap c (VDataWrap (S c) l)])],
                  w2)).
    by rewrite (list_insert_id _ _ _ Hl1), world_eta, sloppy_this_idemp. }
  split.
  { by rewrite (invoke_closure (VDataWrap c (VDataWrap (S c) l)) _ _ _ c
                (CDataWrap (VDataWrap (S c) l)) a1 eq_refl Hl1). }
  assert (Hl2' : activations w3 !! S c = Some a2).
  { cbn [w3 activations]. rewrite list_lookup_insert_ne by lia. exact Hl2. }
  split.
  { by rewrite (invoke_closure (VDataWrap (S c) l) _ _ _ (S c) (CDataWrap l)
                a2 eq_refl Hl2'). }
  split.
  - cbn [w4 w3 activations]. rewrite list_lookup_insert_ne by lia.
    rewrite list_lookup_insert_eq; [done|]. by apply lookup_lt_Some in Hl1.
  - cbn [w4 activations]. rewrite list_lookup_insert_eq; [done|].
    by apply lookup_lt_Some in Hl2'.
Qed.

Lemma X7_converting_twice_nests_witness :
  ∃ w1 w2,
    convertToAsyncStream 1%positive (VExt 9) plain_stream
      = Some (VObj 1%positive, w1)
    ∧ convertToAsyncStream 1%positive (VExt 8) w1 = Some (VObj 1%positive, w2)
    ∧ activations w2 !! 1%nat = Some (Activation (VExt 8) (VOn 0) init_vars).
Proof.
  destruct (X7_converting_twice_nests 1%positive (VExt 9) (VExt 8) plain_stream
              {[ "on" := VExt 7 ]} (VExt 0) (VNum 1) (VObj 1%positive)
              (VObj 1%positive) eq_refl)
    as (w1 & w2 & w3 & w4 & H1 & H2 & _ & _ & H5 & _).
  by exists w1, w2.
Defined.
